(** * textDetection: the inverted index over Redis

    A shallow embedding of the text-detection sample (the [Index] object,
    [extractDescriptions] and [getTextFromFiles]) together with the part of
    Redis, of the Promise API and of the word tokenizer that the sample
    relies on, followed by the properties of the index that hold, and the
    ones that do not, on this code.

    The repository holds the sample twice, once written with [async]
    functions and once with callbacks.  The bodies of the functions
    embedded here are the same in both: each builds an array of functions
    of one callback and hands the array to [Promise.all].  In the callback
    copy [add] and [lookup] are ordinary functions and [self] is the index;
    in the [async] copy they are arrow functions, whose [this] is not the
    index.  [self] stands for the index throughout. *)

From Stdlib Require Import Ascii.
From stdpp Require Import gmap strings list.

Local Open Scope Z_scope.
Local Open Scope string_scope.
Local Open Scope list_scope.

(** ** JavaScript strings

    Strings are modelled as ASCII strings.  [toLowerCase] folds the letters
    [A]..[Z]; a string is truthy when it is not empty. *)

Definition toLowerCase_ascii (c : ascii) : ascii :=
  let n := N_of_ascii c in
  if ((65 <=? n) && (n <=? 90))%N then ascii_of_N (n + 32) else c.

Fixpoint toLowerCase (s : string) : string :=
  match s with
  | EmptyString => EmptyString
  | String c s' => String (toLowerCase_ascii c) (toLowerCase s')
  end.

(** [xs.indexOf(x)]: the first position of [x], or [-1]. *)
Fixpoint indexOf (xs : list string) (x : string) : Z :=
  match xs with
  | [] => -1
  | y :: ys =>
      if decide (y = x) then 0
      else let i := indexOf ys x in if decide (i = -1) then -1 else i + 1
  end.

(** ** Redis

    A key holds a string or a set of strings.  One server holds several
    numbered databases; a key is qualified by the number of its database. *)

Inductive rvalue : Type :=
  | RString (s : string)
  | RSet (members : gset string).

Inductive command : Type :=
  | SADD (key member : string)
  | SMEMBERS (key : string)
  | GET (key : string)
  | SET (key value : string).

Inductive reply : Type :=
  | Integer (n : Z)
  | OK
  | Bulk (s : string)
  | Nil
  | Members (members : gset string).

Inductive exn : Type :=
  | WRONGTYPE
  | TypeError.

(** What a node-style callback [function(err, value)] receives. *)
Inductive result (A : Type) : Type :=
  | Err (err : exn)
  | Ok (value : A).
Arguments Err {A} err.
Arguments Ok {A} value.

Definition is_ok {A : Type} (r : result A) : bool :=
  match r with Ok _ => true | Err _ => false end.

Abbreviation keyspace := (gmap (nat * string) rvalue).

(** The effect of one command sent to database [db]: SADD creates the set
    when the key is absent and replies with the number of members added;
    SET overwrites whatever the key held; SADD, SMEMBERS and GET on a key
    of the other type fail with WRONGTYPE and change nothing. *)
Definition exec (db : nat) (cmd : command) (srv : keyspace) : result reply * keyspace :=
  match cmd with
  | SADD key member =>
      match srv !! (db, key) with
      | None => (Ok (Integer 1), <[(db, key) := RSet {[member]}]> srv)
      | Some (RSet m) =>
          (Ok (Integer (if decide (member ∈ m) then 0 else 1)),
           <[(db, key) := RSet ({[member]} ∪ m)]> srv)
      | Some (RString _) => (Err WRONGTYPE, srv)
      end
  | SMEMBERS key =>
      match srv !! (db, key) with
      | None => (Ok (Members ∅), srv)
      | Some (RSet m) => (Ok (Members m), srv)
      | Some (RString _) => (Err WRONGTYPE, srv)
      end
  | GET key =>
      match srv !! (db, key) with
      | None => (Ok Nil, srv)
      | Some (RString s) => (Ok (Bulk s), srv)
      | Some (RSet _) => (Err WRONGTYPE, srv)
      end
  | SET key value => (Ok OK, <[(db, key) := RString value]> srv)
  end.

(** ** The world: the Redis server and a trace of what happened *)

Inductive event : Type :=
  | Console (line : string)
  | Issued (db : nat) (cmd : command)
  | IndexAdd (filename document : string)
  | IndexSetContainsNoText (filename : string).

Record world : Type := World {
  redis : keyspace;
  trace : list event;
}.

Definition M (A : Type) : Type := world → A * world.

Definition ret {A : Type} (a : A) : M A := λ w, (a, w).

Definition bind {A B : Type} (m : M A) (k : A → M B) : M B :=
  λ w, let '(a, w') := m w in k a w'.

Notation "'do' x <- m ; k" := (bind m (λ x, k))
  (at level 10, x name, m at level 100, k at level 200).
Notation "'do_' m ; k" := (bind m (λ _, k))
  (at level 10, m at level 100, k at level 200).

Definition emit (e : event) : M unit :=
  λ w, (tt, {| redis := redis w; trace := trace w ++ [e] |}).

Definition console_log (line : string) : M unit := emit (Console line).

(** A Redis client is bound to one database of the server. *)
Record client : Type := Client { db : nat }.

Definition createClient (n : nat) : client := {| db := n |}.

(** [client.cmd(args, cb)]: the command goes to the client's database and
    [cb] receives the error or the reply. *)
Definition send (c : client) (cmd : command) : M (result reply) :=
  λ w, let '(r, srv) := exec (db c) cmd (redis w) in
       (r, {| redis := srv; trace := trace w ++ [Issued (db c) cmd] |}).

(** ** Promises

    [Promise.all] takes values of any kind.  A promise among them is
    waited for; any other value, a function included, is handed through
    as it is.  The first rejection, in the order of the list, rejects the
    whole. *)

Inductive promise (A : Type) : Type :=
  | Fulfilled (value : A)
  | Rejected (reason : exn).
Arguments Fulfilled {A} value.
Arguments Rejected {A} reason.

Inductive awaited (A : Type) : Type :=
  | Plain (value : A)
  | Thenable (p : promise A).
Arguments Plain {A} value.
Arguments Thenable {A} p.

Fixpoint Promise_all {A : Type} (values : list (awaited A)) : promise (list A) :=
  match values with
  | [] => Fulfilled []
  | x :: rest =>
      match x with
      | Thenable (Rejected e) => Rejected e
      | Plain v | Thenable (Fulfilled v) =>
          match Promise_all rest with
          | Fulfilled vs => Fulfilled (v :: vs)
          | Rejected e => Rejected e
          end
      end
  end.

(** ** The word tokenizer

    The index is generic in the tokenizer.  [WordTokenizer] follows the
    one of the [natural] package on ASCII text: the text is split at every
    character that is not a letter, a digit or an underscore, and the empty
    pieces are dropped. *)

Record tokenizer : Type := Tokenizer { tokenize : string → list string }.

Definition is_word_char (c : ascii) : bool :=
  let n := N_of_ascii c in
  ((48 <=? n) && (n <=? 57) || (65 <=? n) && (n <=? 90)
   || (97 <=? n) && (n <=? 122) || (n =? 95))%N.

Fixpoint split_words (s : string) (word : string) : list string :=
  match s with
  | EmptyString => [word]
  | String c s' =>
      if is_word_char c then split_words s' (word +:+ String c "")
      else word :: split_words s' ""
  end.

Definition WordTokenizer : tokenizer :=
  {| tokenize := λ s, filter (λ piece, piece ≠ "") (split_words s "") |}.

(** ** Deferred store operations

    [function(cb) { self.tokenClient.sadd(token, filename, cb); }] and its
    siblings: a function that, once somebody calls it, sends one command
    through one client.  Building such a function sends nothing. *)

Record task : Type := Task {
  task_client : client;
  task_command : command;
}.

(** Calling the function with a callback. *)
Definition call (t : task) : M (result reply) :=
  send (task_client t) (task_command t).

(** Calling each function of a list in turn, collecting what the callbacks
    receive. *)
Fixpoint call_all (tasks : list task) : M (list (result reply)) :=
  match tasks with
  | [] => ret []
  | t :: rest =>
      do r <- call t;
      do rs <- call_all rest;
      ret (r :: rs)
  end.

(** JavaScript truthiness of what a Redis callback receives as [value]. *)
Definition truthy (value : reply) : bool :=
  match value with
  | Integer n => negb (Z.eqb n 0)
  | OK => true
  | Bulk s => negb (String.eqb s "")
  | Nil => false
  | Members _ => true
  end.

(** [value === ''] *)
Definition is_empty_string (value : reply) : bool :=
  match value with
  | Bulk s => String.eqb s ""
  | _ => false
  end.

(** ** The index *)

Module Index.

Record t : Type := {
  tokenClient : client;
  docsClient : client;
}.

Definition TOKEN_DB : nat := 0.
Definition DOCS_DB : nat := 1.

(** [new Index()] *)
Definition new : t :=
  {| tokenClient := createClient TOKEN_DB;
     docsClient := createClient DOCS_DB |}.

Definition PUNCTUATION : list string := ["."; ","; ":"; ""].

(** The [tasks] array that [add] builds: one function per token that
    passes the filter, and a last one for the text. *)
Definition add_tasks (tk : tokenizer) (self : t) (filename document : string)
    : list task :=
  let tokens := tokenize tk document in
  let tasks :=
    (λ token, Task (tokenClient self) (SADD token filename))
      <$> filter (λ token, indexOf PUNCTUATION token = -1) tokens in
  tasks ++ [Task (tokenClient self) (SET filename document)].

(** [Index.prototype.add]: the functions are given to [Promise.all] as
    they are; nothing in [add] calls them. *)
Definition add (tk : tokenizer) (self : t) (filename document : string)
    : M (promise (list task)) :=
  do_ emit (IndexAdd filename document);
  ret (Promise_all (Plain <$> add_tasks tk self filename document)).

Definition lookup_tasks (self : t) (words : list string) : list task :=
  (λ word, let word := toLowerCase word in
           Task (tokenClient self) (SMEMBERS word)) <$> words.

(** [Index.prototype.lookup] *)
Definition lookup (self : t) (words : list string) : M (promise (list task)) :=
  ret (Promise_all (Plain <$> lookup_tasks self words)).

(** [Index.prototype.documentIsProcessed]: the GET is sent at once, and
    the result is what [callback] receives. *)
Definition documentIsProcessed (self : t) (filename : string) : M (result bool) :=
  do r <- send (docsClient self) (GET filename);
  match r with
  | Err err => ret (Err err)
  | Ok value =>
      if truthy value then
        do_ console_log (filename +:+ " already added to index.");
        ret (Ok true)
      else if is_empty_string value then
        do_ console_log
          (filename +:+ " was already checked, and contains no text.");
        ret (Ok true)
      else ret (Ok false)
  end.

(** [Index.prototype.setContainsNoText] *)
Definition setContainsNoText (self : t) (filename : string) : M (result reply) :=
  do_ emit (IndexSetContainsNoText filename);
  send (docsClient self) (SET filename "").

End Index.

(** ** The batch: responses of the annotation service *)

Record annotation : Type := { description : option string }.

Record response : Type := {
  error : option string;
  textAnnotations : list annotation;
}.

(** [document += text.description || ''] over the annotations. *)
Definition extractDescription (texts : list annotation) : string :=
  foldl (λ document text, document +:+ default "" (description text)) "" texts.

Definition extractDescriptions (tk : tokenizer) (filename : string)
    (index : Index.t) (response : response) : M unit :=
  match length (textAnnotations response) with
  | S _ =>
      do_ Index.add tk index filename (extractDescription (textAnnotations response));
      ret tt
  | O =>
      do_ console_log (filename +:+ " had no discernable text.");
      do_ Index.setContainsNoText index filename;
      ret tt
  end.

(** [cb => extractDescriptions(filename, index, response, cb)] *)
Record file_task : Type := FileTask {
  ft_filename : string;
  ft_response : response;
}.

Definition call_file_task (tk : tokenizer) (index : Index.t) (ft : file_task) : M unit :=
  extractDescriptions tk (ft_filename ft) index (ft_response ft).

(** The body of [inputFiles.map((filename, i) => ...)]: [detections[i]] is
    read by position ([undefined.error] throws); a response with an error
    is logged and yields [undefined], any other yields the function. *)
Fixpoint map_inputFiles (detections : list response) (i : nat)
    (inputFiles : list string) : M (result (list (option file_task))) :=
  match inputFiles with
  | [] => ret (Ok [])
  | filename :: rest =>
      match detections !! i with
      | None => ret (Err TypeError)
      | Some response =>
          do task <-
            match error response with
            | Some e =>
                do_ console_log ("API Error for " +:+ filename +:+ " " +:+ e);
                ret None
            | None => ret (Some (FileTask filename response))
            end;
          do tasks <- map_inputFiles detections (S i) rest;
          ret (match tasks with
               | Err e => Err e
               | Ok ts => Ok (task :: ts)
               end)
      end
  end.

(** [getTextFromFiles], from the responses of [batchAnnotateImages] on:
    [detections] is [results[0].responses] as the callback copy reads it.
    The functions are given to [Promise.all] as they are.  (The local
    object [textResponse] is written and never read; it is left out.) *)
Definition getTextFromFiles (index : Index.t) (inputFiles : list string)
    (detections : list response) : M (promise (list (option file_task))) :=
  do tasks <- map_inputFiles detections 0 inputFiles;
  ret (match tasks with
       | Err e => Rejected e
       | Ok ts => Promise_all (Plain <$> ts)
       end).

Definition run {A : Type} (m : M A) (w : world) : A * world := m w.

Definition empty_world : world := {| redis := ∅; trace := [] |}.

(** The tokens that a list of deferred operations indexes: the keys of its
    SADD commands, in order. *)
Definition indexed_tokens (tasks : list task) : list string :=
  omap (λ t, match task_command t with
             | SADD token _ => Some token
             | _ => None
             end) tasks.

(** The server after one deferred operation has been called. *)
Definition step (srv : keyspace) (t : task) : keyspace :=
  (exec (db (task_client t)) (task_command t) srv).2.

Definition issued (t : task) : event :=
  Issued (db (task_client t)) (task_command t).

(** A key of database [n] that holds a set with [member] in it. *)
Definition posted (n : nat) (key member : string) (srv : keyspace) : Prop :=
  ∃ m, srv !! (n, key) = Some (RSet m) ∧ member ∈ m.

(** A key on which [SADD key member] changes nothing: it holds a string,
    or a set that has the member already. *)
Definition settled (n : nat) (key member : string) (srv : keyspace) : Prop :=
  (∃ s, srv !! (n, key) = Some (RString s)) ∨ posted n key member srv.

(** The key, qualified by its database, that an operation touches. *)
Definition command_key (cmd : command) : string :=
  match cmd with
  | SADD key _ | SMEMBERS key | GET key | SET key _ => key
  end.

Definition target (t : task) : nat * string :=
  (db (task_client t), command_key (task_command t)).

(** What the callbacks of a list of operations receive, one after the
    other. *)
Fixpoint replies (srv : keyspace) (tasks : list task) : list (result reply) :=
  match tasks with
  | [] => []
  | t :: rest =>
      (exec (db (task_client t)) (task_command t) srv).1 :: replies (step srv t) rest
  end.

(** A server on which the key "Hello" of database 0 holds a string. *)
Definition string_at_Hello : world :=
  {| redis := {[ (Index.TOKEN_DB, "Hello") := RString "x" ]}; trace := [] |}.

(** What [getTextFromFiles] keeps for one file: [undefined] for a
    response with an error, the function for any other. *)
Definition file_entry (filename : string) (r : response) : option file_task :=
  match error r with
  | Some _ => None
  | None => Some (FileTask filename r)
  end.

(** The line [getTextFromFiles] logs for one file, if any. *)
Definition error_line (filename : string) (r : response) : option event :=
  (λ e, Console ("API Error for " +:+ filename +:+ " " +:+ e)) <$> error r.

(** What the key [key] of database [n] holds once [SADD key' member] has
    been carried out for every [key'] of [keys]. *)
Definition after_sadds (keys : list string) (member key : string)
    (before : option rvalue) : option rvalue :=
  match before with
  | Some (RString s) => Some (RString s)
  | Some (RSet m) => Some (RSet (if decide (key ∈ keys) then {[member]} ∪ m else m))
  | None => if decide (key ∈ keys) then Some (RSet {[member]}) else None
  end.

(** Whether a string is made of ASCII characters only.  On such strings
    [toLowerCase] above is [String.prototype.toLowerCase]. *)
Fixpoint ascii_only (s : string) : bool :=
  match s with
  | EmptyString => true
  | String c s' => (N_of_ascii c <? 128)%N && ascii_only s'
  end.

(** Whether a key holds a string. *)
Definition holds_string (held : option rvalue) : bool :=
  match held with
  | Some (RString _) => true
  | _ => false
  end.

(** The tokens of a text that pass the filter of [add]. *)
Definition kept_tokens (tk : tokenizer) (document : string) : list string :=
  filter (λ token, indexOf Index.PUNCTUATION token = -1) (tokenize tk document).

(** What a SMEMBERS of a key returns, from what the key holds. *)
Definition members_reply (held : option rvalue) : result reply :=
  match held with
  | None => Ok (Members ∅)
  | Some (RSet m) => Ok (Members m)
  | Some (RString _) => Err WRONGTYPE
  end.

(** ** The command line

    The block under [if (module === require.main)]: what the script does
    with [process.argv].  [process.exit(1)] ends the script; [main] and
    [lookup] are the functions the script hands over to. *)

Definition newline : string := String (ascii_of_nat 10) "".
Definition tab : string := String (ascii_of_nat 9) "".

Definition generalError : string :=
  "Usage: node textDetection <command> <arg> ..." +:+ newline +:+ newline
  +:+ tab +:+ "Commands: analyze, lookup".

Inductive action : Type :=
  | Exit (logged : string) (status : Z)
  | Main (inputDir : string)
  | Lookup (words : list string).

Definition script (argv : list string) : action :=
  if decide (length argv < 3)%nat then Exit generalError 1
  else
    let args := drop 2 argv in
    let command := head args in
    let args := tail args in
    if decide (command = Some "analyze") then
      match args with
      | [] => Exit "Usage: node textDetection analyze <dir>" 1
      | inputDir :: _ => Main inputDir
      end
    else if decide (command = Some "lookup") then
      match args with
      | [] => Exit "Usage: node textDetection lookup <word> ..." 1
      | _ :: _ => Lookup args
      end
    else Exit generalError 1.

(** * Properties *)

(** ** Promises and the state monad *)

(** Rewrite with an equation stated on [run m w] where the goal has [m w]. *)
Ltac rewrite_run H :=
  let E := fresh "E" in
  pose proof H as E; unfold run in E; rewrite E; clear E.

Lemma Promise_all_Plain {A : Type} (values : list A) :
  Promise_all (Plain <$> values) = Fulfilled values.
Proof.
  induction values as [|v values IH]; [done|].
  cbn. by rewrite IH.
Qed.

Lemma run_add tk self filename document w :
  run (Index.add tk self filename document) w =
  (Fulfilled (Index.add_tasks tk self filename document),
   {| redis := redis w; trace := trace w ++ [IndexAdd filename document] |}).
Proof.
  unfold run, Index.add, bind, emit, ret. cbn.
  by rewrite Promise_all_Plain.
Qed.

Lemma run_lookup self words w :
  run (Index.lookup self words) w =
  (Fulfilled (Index.lookup_tasks self words), w).
Proof. unfold run, Index.lookup, ret. by rewrite Promise_all_Plain. Qed.

Lemma run_call t w :
  run (call t) w =
  ((exec (db (task_client t)) (task_command t) (redis w)).1,
   {| redis := step (redis w) t; trace := trace w ++ [issued t] |}).
Proof.
  unfold run, call, send, step, issued.
  by destruct (exec _ _ _).
Qed.

Lemma call_all_redis tasks w :
  redis (run (call_all tasks) w).2 = foldl step (redis w) tasks.
Proof.
  revert w. induction tasks as [|t tasks IH]; intros w; [done|].
  cbn [call_all foldl]. unfold run, bind in *.
  rewrite_run (run_call t w).
  specialize (IH {| redis := step (redis w) t; trace := trace w ++ [issued t] |}).
  destruct (call_all tasks _) as [rs w']. exact IH.
Qed.

Lemma call_all_trace tasks w :
  trace (run (call_all tasks) w).2 = trace w ++ (issued <$> tasks).
Proof.
  revert w. induction tasks as [|t tasks IH]; intros w.
  - cbn. by rewrite app_nil_r.
  - cbn [call_all fmap list_fmap]. unfold run, bind in *.
    rewrite_run (run_call t w).
    specialize (IH {| redis := step (redis w) t; trace := trace w ++ [issued t] |}).
    destruct (call_all tasks _) as [rs w']. cbn in *.
    by rewrite IH, <- app_assoc.
Qed.

Lemma call_all_seq_redis tasks1 tasks2 w :
  redis (run (do_ call_all tasks1; call_all tasks2) w).2 =
  foldl step (foldl step (redis w) tasks1) tasks2.
Proof.
  unfold run, bind.
  pose proof (call_all_redis tasks1 w) as H1. unfold run in H1.
  destruct (call_all tasks1 w) as [rs w1]. cbn in H1.
  pose proof (call_all_redis tasks2 w1) as H2. unfold run in H2.
  by rewrite H2, H1.
Qed.

(** ** The filter of [add] *)

Lemma indexOf_lower_bound xs x : (-1 ≤ indexOf xs x)%Z.
Proof.
  induction xs as [|y ys IH]; cbn; [lia|].
  repeat case_decide; lia.
Qed.

Lemma indexOf_absent xs x : indexOf xs x = -1 ↔ x ∉ xs.
Proof.
  induction xs as [|y ys IH]; cbn.
  - split; [intros _; apply not_elem_of_nil | done].
  - pose proof (indexOf_lower_bound ys x) as Hlo.
    rewrite not_elem_of_cons. repeat case_decide; subst.
    + split; [lia | intros [? _]; done].
    + split; [intros _; split; [done | by apply IH] | done].
    + split; [lia | intros [_ Hys]; apply IH in Hys; done].
Qed.

Lemma passes_filter token :
  indexOf Index.PUNCTUATION token = -1 ↔
  token ≠ "." ∧ token ≠ "," ∧ token ≠ ":" ∧ token ≠ "".
Proof.
  rewrite indexOf_absent. unfold Index.PUNCTUATION.
  rewrite !not_elem_of_cons. split.
  - intros (? & ? & ? & ? & _). done.
  - intros (? & ? & ? & ?). repeat split; try done. apply not_elem_of_nil.
Qed.

Lemma indexed_tokens_sadd c filename tokens :
  indexed_tokens ((λ token, Task c (SADD token filename)) <$> tokens) = tokens.
Proof.
  unfold indexed_tokens.
  induction tokens as [|token tokens IH]; [done|].
  cbn. by rewrite IH.
Qed.

Lemma indexed_tokens_add_tasks tk self filename document :
  indexed_tokens (Index.add_tasks tk self filename document) =
  filter (λ token, indexOf Index.PUNCTUATION token = -1) (tokenize tk document).
Proof.
  unfold Index.add_tasks. unfold indexed_tokens at 1.
  rewrite omap_app. fold (indexed_tokens
    ((λ token, Task (Index.tokenClient self) (SADD token filename)) <$>
     filter (λ token, indexOf Index.PUNCTUATION token = -1) (tokenize tk document))).
  rewrite indexed_tokens_sadd. cbn. by rewrite app_nil_r.
Qed.

(** The functions that [add] builds: one SADD for each token of the
    tokenizer's output other than ".", ",", ":" and the empty string, in
    order and with repetitions, and last the SET of the text. *)
Lemma add_tasks_are_the_filtered_tokens tk self filename document :
  let kept :=
    filter (λ token, token ≠ "." ∧ token ≠ "," ∧ token ≠ ":" ∧ token ≠ "")
           (tokenize tk document) in
  indexed_tokens (Index.add_tasks tk self filename document) = kept
  ∧ Index.add_tasks tk self filename document =
    ((λ token, Task (Index.tokenClient self) (SADD token filename)) <$> kept)
    ++ [Task (Index.tokenClient self) (SET filename document)].
Proof.
  cbn zeta.
  assert (filter (λ token, indexOf Index.PUNCTUATION token = -1) (tokenize tk document)
          = filter (λ token, token ≠ "." ∧ token ≠ "," ∧ token ≠ ":" ∧ token ≠ "")
                   (tokenize tk document)) as Hkept.
  { apply list_filter_iff. intros token. apply passes_filter. }
  split.
  - by rewrite indexed_tokens_add_tasks.
  - unfold Index.add_tasks. by rewrite Hkept.
Qed.

(** C7, on the code.  For the text "Hello, World." of a.txt on an empty
    server the tokenizer gives "Hello" and "World", and neither is
    filtered out.  [add] is fulfilled with the three functions it built,
    the SADD for "Hello", the SADD for "World" and the SET of the text;
    it has sent no command and the server is still empty: no token has
    been indexed. *)
Theorem add_indexes_no_token :
  tokenize WordTokenizer "Hello, World." = ["Hello"; "World"]
  ∧ indexOf Index.PUNCTUATION "Hello" = -1
  ∧ indexOf Index.PUNCTUATION "World" = -1
  ∧ run (Index.add WordTokenizer Index.new "a.txt" "Hello, World.") empty_world
    = (Fulfilled [Task (Index.tokenClient Index.new) (SADD "Hello" "a.txt");
                  Task (Index.tokenClient Index.new) (SADD "World" "a.txt");
                  Task (Index.tokenClient Index.new) (SET "a.txt" "Hello, World.")],
       {| redis := ∅; trace := [IndexAdd "a.txt" "Hello, World."] |}).
Proof. vm_compute. repeat split. Qed.

(** ** What [documentIsProcessed] tells *)

Lemma documentIsProcessed_result self filename w :
  (run (Index.documentIsProcessed self filename) w).1 =
  match redis w !! (db (Index.docsClient self), filename) with
  | None => Ok false
  | Some (RString _) => Ok true
  | Some (RSet _) => Err WRONGTYPE
  end.
Proof.
  unfold run, Index.documentIsProcessed, bind, send, exec.
  destruct (redis w !! (db (Index.docsClient self), filename)) as [[s|m]|];
    cbn; try done.
  destruct s as [|c s]; done.
Qed.

(** C10. [documentIsProcessed] hands its callback [true] for every string
    found under the file name in the docs database, empty or not, and
    [false] when the key is absent; the two processed states give the same
    answer.  (A key of the wrong type makes the GET fail, and the error is
    handed on.) *)
Theorem documentIsProcessed_is_boolean filename w :
  (run (Index.documentIsProcessed Index.new filename) w).1 =
  match redis w !! (Index.DOCS_DB, filename) with
  | None => Ok false
  | Some (RString _) => Ok true
  | Some (RSet _) => Err WRONGTYPE
  end.
Proof. apply (documentIsProcessed_result Index.new). Qed.

Lemma documentIsProcessed_redis self filename w :
  redis (run (Index.documentIsProcessed self filename) w).2 = redis w.
Proof.
  unfold run, Index.documentIsProcessed, bind, send, exec.
  destruct (redis w !! (db (Index.docsClient self), filename)) as [[s|m]|];
    cbn; try done.
  destruct s as [|c s]; done.
Qed.

(** C6. [setContainsNoText] stores the empty string under the file name
    in the docs database, with that single SET and nothing in the token
    database; [documentIsProcessed] then finds the empty string, takes
    its contains-no-text branch and reports the file as processed. *)
Theorem setContainsNoText_then_documentIsProcessed filename w :
  let w1 := (run (Index.setContainsNoText Index.new filename) w).2 in
  let w2 := (run (Index.documentIsProcessed Index.new filename) w1).2 in
  (run (Index.setContainsNoText Index.new filename) w).1 = Ok OK
  ∧ redis w1 = <[(Index.DOCS_DB, filename) := RString ""]> (redis w)
  ∧ trace w1 = trace w ++ [IndexSetContainsNoText filename;
                           Issued Index.DOCS_DB (SET filename "")]
  ∧ (∀ key, redis w1 !! (Index.TOKEN_DB, key) = redis w !! (Index.TOKEN_DB, key))
  ∧ (run (Index.documentIsProcessed Index.new filename) w1).1 = Ok true
  ∧ trace w2 = trace w1 ++
      [Issued Index.DOCS_DB (GET filename);
       Console (filename +:+ " was already checked, and contains no text.")].
Proof.
  cbn zeta.
  unfold run, Index.setContainsNoText, Index.documentIsProcessed,
    bind, emit, send, console_log, exec, ret. cbn.
  rewrite lookup_insert_eq. cbn.
  repeat split; try done.
  - by rewrite <- app_assoc.
  - intros key. by rewrite lookup_insert_ne.
  - by rewrite <- !app_assoc.
Qed.

(** ** Which keys a deferred operation touches *)

Lemma step_frame t srv k : k ≠ target t → step srv t !! k = srv !! k.
Proof.
  destruct t as [[n] cmd]. unfold target, step, exec. cbn.
  intros Hk.
  destruct cmd as [key member|key|key|key value]; cbn in *;
    destruct (srv !! (n, key)) as [[s|m]|]; cbn;
    by rewrite ?lookup_insert_ne.
Qed.

Lemma foldl_step_frame tasks srv k :
  Forall (λ t, k ≠ target t) tasks → foldl step srv tasks !! k = srv !! k.
Proof.
  revert srv. induction tasks as [|t tasks IH]; intros srv Hall; [done|].
  apply Forall_cons in Hall as [Ht Hall]. cbn.
  by rewrite IH, step_frame.
Qed.

Lemma step_read_only t srv :
  (∃ key, task_command t = SMEMBERS key ∨ task_command t = GET key) →
  step srv t = srv.
Proof.
  destruct t as [[n] cmd]. unfold step, exec. cbn.
  intros [key [-> | ->]]; by destruct (srv !! (n, key)) as [[s|m]|].
Qed.

Lemma foldl_step_lookup_tasks self words srv :
  foldl step srv (Index.lookup_tasks self words) = srv.
Proof.
  unfold Index.lookup_tasks.
  induction words as [|word words IH]; [done|].
  cbn [fmap list_fmap foldl]. rewrite step_read_only; [done|].
  eexists. by left.
Qed.

Lemma add_tasks_client tk self filename document :
  Forall (λ t, task_client t = Index.tokenClient self)
         (Index.add_tasks tk self filename document).
Proof.
  unfold Index.add_tasks. apply Forall_app. split.
  - apply Forall_fmap, Forall_true. done.
  - by apply Forall_singleton.
Qed.

(** C2. Every operation that [add] builds is a write through the token
    client, database 0: an SADD of the file name or the SET of the text.
    [add] itself leaves the server as it was; and when the operations are
    carried out, each is sent to database 0 and no key of the docs
    database, database 1, changes.  Of the methods of the index only
    [setContainsNoText] writes to database 1: [lookup] and
    [documentIsProcessed] change nothing, carried out or not. *)
Theorem add_writes_only_to_the_token_database tk filename document words w :
  let tasks := Index.add_tasks tk Index.new filename document in
  Index.TOKEN_DB = 0%nat ∧ Index.DOCS_DB = 1%nat
  ∧ Forall (λ t, db (task_client t) = Index.TOKEN_DB
                 ∧ (task_command t = SET filename document
                    ∨ ∃ token, task_command t = SADD token filename)) tasks
  ∧ redis (run (Index.add tk Index.new filename document) w).2 = redis w
  ∧ trace (run (call_all tasks) w).2 =
      trace w ++ ((λ t, Issued Index.TOKEN_DB (task_command t)) <$> tasks)
  ∧ (∀ key, redis (run (call_all tasks) w).2 !! (Index.DOCS_DB, key) =
            redis w !! (Index.DOCS_DB, key))
  ∧ redis (run (Index.setContainsNoText Index.new filename) w).2 =
      <[(Index.DOCS_DB, filename) := RString ""]> (redis w)
  ∧ redis (run (Index.lookup Index.new words) w).2 = redis w
  ∧ redis (run (call_all (Index.lookup_tasks Index.new words)) w).2 = redis w
  ∧ redis (run (Index.documentIsProcessed Index.new filename) w).2 = redis w.
Proof.
  cbn zeta.
  pose proof (add_tasks_client tk Index.new filename document) as Hc.
  split; [done|]. split; [done|]. split; [|split; [|split; [|split]]].
  - unfold Index.add_tasks. apply Forall_app. split.
    + apply Forall_fmap, Forall_true. intros token. cbn. eauto.
    + apply Forall_singleton. cbn. eauto.
  - by rewrite run_add.
  - rewrite call_all_trace. f_equal.
    apply Forall_fmap_ext_1.
    eapply Forall_impl; [exact Hc|].
    intros t Ht. unfold issued. by rewrite Ht.
  - intros key. rewrite call_all_redis. apply foldl_step_frame.
    eapply Forall_impl; [exact Hc|].
    intros t Ht. unfold target. rewrite Ht. cbn. unfold Index.DOCS_DB, Index.TOKEN_DB.
    intros [=].
  - split; [done|]. split; [by rewrite run_lookup|]. split.
    + by rewrite call_all_redis, foldl_step_lookup_tasks.
    + apply documentIsProcessed_redis.
Qed.

(** ** Posting sets under SADD and SET *)

Section Postings.
Context (n : nat) (member : string).

Lemma step_sadd_settled key srv :
  settled n key member srv → step srv (Task (Client n) (SADD key member)) = srv.
Proof.
  unfold step, exec. cbn.
  intros [[s Hs] | (m & Hm & Hin)].
  - by rewrite Hs.
  - rewrite Hm. cbn.
    rewrite (subseteq_union_1_L {[member]} m) by by apply singleton_subseteq_l.
    by apply insert_id.
Qed.

Lemma posted_after_sadd key srv :
  (exec n (SADD key member) srv).1 ≠ Err WRONGTYPE →
  posted n key member (step srv (Task (Client n) (SADD key member))).
Proof.
  unfold posted, step, exec. cbn.
  destruct (srv !! (n, key)) as [[s|m]|]; cbn; intros Hok; [done| |].
  - exists ({[member]} ∪ m). rewrite lookup_insert_eq. split; [done|set_solver].
  - exists {[member]}. rewrite lookup_insert_eq. split; [done|set_solver].
Qed.

Lemma posted_preserved_sadd key key' srv :
  posted n key member srv → posted n key member (step srv (Task (Client n) (SADD key' member))).
Proof.
  intros (m & Hm & Hin).
  destruct (decide (key' = key)) as [->|Hne].
  - rewrite step_sadd_settled; [by exists m|]. right. by exists m.
  - exists m. split; [|done].
    rewrite step_frame; [done|]. unfold target. cbn. congruence.
Qed.

Lemma settled_after_sadd key srv : settled n key member (step srv (Task (Client n) (SADD key member))).
Proof.
  destruct (srv !! (n, key)) as [[s|m]|] eqn:Hk.
  - left. exists s. unfold step, exec. cbn. by rewrite Hk.
  - right. apply posted_after_sadd. unfold exec. by rewrite Hk.
  - right. apply posted_after_sadd. unfold exec. by rewrite Hk.
Qed.

Lemma settled_preserved_sadd key key' srv :
  settled n key member srv → settled n key member (step srv (Task (Client n) (SADD key' member))).
Proof.
  intros [[s Hs] | Hp].
  - left. exists s.
    destruct (decide (key' = key)) as [->|Hne].
    + rewrite step_sadd_settled; [done|]. left. by exists s.
    + rewrite step_frame; [done|]. unfold target. cbn. congruence.
  - right. by apply posted_preserved_sadd.
Qed.

Lemma posted_preserved_sadds key keys srv :
  posted n key member srv →
  posted n key member (foldl step srv ((λ key, Task (Client n) (SADD key member)) <$> keys)).
Proof.
  revert srv. induction keys as [|key' keys IH]; intros srv Hp; [done|].
  cbn. by apply IH, posted_preserved_sadd.
Qed.

Lemma settled_preserved_sadds key keys srv :
  settled n key member srv →
  settled n key member (foldl step srv ((λ key, Task (Client n) (SADD key member)) <$> keys)).
Proof.
  revert srv. induction keys as [|key' keys IH]; intros srv Hs; [done|].
  cbn. by apply IH, settled_preserved_sadd.
Qed.

Lemma settled_after_sadds keys srv :
  Forall (λ key, settled n key member (foldl step srv ((λ key, Task (Client n) (SADD key member)) <$> keys))) keys.
Proof.
  revert srv. induction keys as [|key keys IH]; intros srv; [done|].
  cbn. apply Forall_cons. split; [|apply IH].
  apply settled_preserved_sadds, settled_after_sadd.
Qed.

Lemma settled_preserved_set key value srv :
  settled n key member srv →
  settled n key member (step srv (Task (Client n) (SET member value))).
Proof.
  unfold step, exec. cbn. intros Hs.
  destruct (decide (key = member)) as [->|Hne].
  - left. exists value. by rewrite lookup_insert_eq.
  - destruct Hs as [[s Hs] | (m & Hm & Hin)].
    + left. exists s. rewrite lookup_insert_ne; [done|congruence].
    + right. exists m. rewrite lookup_insert_ne; [done|congruence].
Qed.

Lemma foldl_step_sadds_settled keys srv :
  Forall (λ key, settled n key member srv) keys →
  foldl step srv ((λ key, Task (Client n) (SADD key member)) <$> keys) = srv.
Proof.
  induction keys as [|key keys IH]; intros Hall; [done|].
  apply Forall_cons in Hall as [Hk Hall].
  cbn. rewrite step_sadd_settled; auto.
Qed.

Lemma step_set_twice value srv :
  let set := Task (Client n) (SET member value) in
  step (step srv set) set = step srv set.
Proof. unfold step, exec. cbn. apply insert_insert_eq. Qed.

End Postings.

Lemma add_tasks_shape tk self filename document :
  Index.add_tasks tk self filename document =
  ((λ key, Task (Client (db (Index.tokenClient self))) (SADD key filename))
     <$> indexed_tokens (Index.add_tasks tk self filename document))
  ++ [Task (Client (db (Index.tokenClient self))) (SET filename document)].
Proof.
  destruct self as [[n] docs]. cbn.
  unfold Index.add_tasks at 2. unfold indexed_tokens. rewrite omap_app.
  fold (indexed_tokens
    ((λ token, Task (Index.tokenClient {| Index.tokenClient := Client n;
                                          Index.docsClient := docs |})
                    (SADD token filename)) <$>
     filter (λ token, indexOf Index.PUNCTUATION token = -1) (tokenize tk document))).
  rewrite indexed_tokens_sadd. cbn. by rewrite app_nil_r.
Qed.

Lemma foldl_step_add_tasks_twice tk self filename document srv :
  let tasks := Index.add_tasks tk self filename document in
  foldl step (foldl step srv tasks) tasks = foldl step srv tasks.
Proof.
  cbn zeta. rewrite add_tasks_shape.
  set (n := db (Index.tokenClient self)).
  set (keys := indexed_tokens _).
  set (sadds := (λ key, Task (Client n) (SADD key filename)) <$> keys).
  set (set := Task (Client n) (SET filename document)).
  rewrite !foldl_app. cbn [foldl].
  set (srv1 := foldl step srv sadds).
  assert (Forall (λ key, settled n key filename (step srv1 set)) keys) as Hall.
  { eapply Forall_impl; [apply (settled_after_sadds n filename keys srv)|].
    intros key Hk. by apply settled_preserved_set. }
  unfold sadds at 1. rewrite foldl_step_sadds_settled by done.
  apply step_set_twice.
Qed.

(** C8. Calling [add] twice for the same file and text leaves the server,
    and so every posting set, as one call leaves it.  That holds of [add]
    as it is, and it holds as well when the operations that each call
    builds are carried out: a second SADD of a member changes nothing. *)
Theorem add_twice_is_add_once tk self filename document w :
  let add := Index.add tk self filename document in
  let tasks := Index.add_tasks tk self filename document in
  redis (run (do_ add; add) w).2 = redis (run add w).2
  ∧ redis (run (do_ call_all tasks; call_all tasks) w).2 =
    redis (run (call_all tasks) w).2.
Proof.
  cbn zeta. split.
  - unfold run, bind.
    rewrite_run (run_add tk self filename document w).
    rewrite_run (run_add tk self filename document
      {| redis := redis w; trace := trace w ++ [IndexAdd filename document] |}). done.
  - rewrite call_all_seq_redis, call_all_redis.
    apply foldl_step_add_tasks_twice.
Qed.

Lemma call_all_replies tasks w :
  (run (call_all tasks) w).1 = replies (redis w) tasks.
Proof.
  revert w. induction tasks as [|t tasks IH]; intros w; [done|].
  cbn [call_all replies]. unfold run, bind in *.
  rewrite_run (run_call t w).
  specialize (IH {| redis := step (redis w) t; trace := trace w ++ [issued t] |}).
  destruct (call_all tasks _) as [rs w']. cbn in *. by rewrite IH.
Qed.

Lemma replies_app srv tasks1 tasks2 :
  replies srv (tasks1 ++ tasks2) =
  replies srv tasks1 ++ replies (foldl step srv tasks1) tasks2.
Proof.
  revert srv. induction tasks1 as [|t tasks1 IH]; intros srv; [done|].
  cbn. by rewrite IH.
Qed.

Lemma run_add_then_lookup tk self filename document words w :
  run (do_ Index.add tk self filename document; Index.lookup self words) w =
  (Fulfilled (Index.lookup_tasks self words),
   {| redis := redis w; trace := trace w ++ [IndexAdd filename document] |}).
Proof.
  unfold run, bind.
  rewrite_run (run_add tk self filename document w).
  rewrite_run (run_lookup self words
    {| redis := redis w; trace := trace w ++ [IndexAdd filename document] |}).
  done.
Qed.

(** C4, on the code.  The text "hello" of a.txt, on an empty server, has
    the one token "hello", which passes the filter and is in lower case.
    After [add], [lookup] of "hello" is fulfilled with the function it
    built for the key "hello" and not with a set that has a.txt in it;
    neither [add] nor [lookup] has sent a command, and the server is
    still empty. *)
Theorem add_then_lookup_finds_nothing :
  tokenize WordTokenizer "hello" = ["hello"]
  ∧ indexOf Index.PUNCTUATION "hello" = -1
  ∧ run (do_ Index.add WordTokenizer Index.new "a.txt" "hello";
             Index.lookup Index.new ["hello"]) empty_world
    = (Fulfilled [Task (Index.tokenClient Index.new) (SMEMBERS "hello")],
       {| redis := ∅; trace := [IndexAdd "a.txt" "hello"] |}).
Proof. vm_compute. repeat split. Qed.

(** ** Where the code departs from its description *)

Lemma documentIsProcessed_after_add tk filename document w :
  let processed := (run (Index.documentIsProcessed Index.new filename) w).1 in
  (run (do_ Index.add tk Index.new filename document;
            Index.documentIsProcessed Index.new filename) w).1 = processed
  ∧ (run (do_ call_all (Index.add_tasks tk Index.new filename document);
              Index.documentIsProcessed Index.new filename) w).1 = processed.
Proof.
  cbn zeta. rewrite (documentIsProcessed_result Index.new). split.
  - unfold run, bind.
    rewrite_run (run_add tk Index.new filename document w).
    rewrite_run (documentIsProcessed_result Index.new filename
      {| redis := redis w; trace := trace w ++ [IndexAdd filename document] |}). done.
  - unfold run, bind.
    pose proof (call_all_redis (Index.add_tasks tk Index.new filename document) w)
      as Hr. unfold run in Hr.
    destruct (call_all _ w) as [rs w1]. cbn in Hr.
    pose proof (documentIsProcessed_result Index.new filename w1) as Hp.
    unfold run in Hp. rewrite Hp, Hr.
    rewrite foldl_step_frame; [done|].
    eapply Forall_impl; [apply add_tasks_client|].
    intros t Ht. unfold target. rewrite Ht. cbn. intros [=].
Qed.

(** C1, on the code.  After [add] of "Hello" for a.txt on an empty server,
    [documentIsProcessed] of a.txt hands its callback [false], whether
    the writes that [add] built are left uncalled, as [add] leaves them,
    or are carried out: the text goes to database 0 and the check reads
    database 1. *)
Theorem add_then_documentIsProcessed_is_false :
  (run (do_ Index.add WordTokenizer Index.new "a.txt" "Hello";
            Index.documentIsProcessed Index.new "a.txt") empty_world).1 = Ok false
  ∧ (run (do_ call_all (Index.add_tasks WordTokenizer Index.new "a.txt" "Hello");
              Index.documentIsProcessed Index.new "a.txt") empty_world).1 = Ok false
  ∧ redis (run (call_all (Index.add_tasks WordTokenizer Index.new "a.txt" "Hello"))
               empty_world).2 !! (Index.TOKEN_DB, "a.txt") = Some (RString "Hello").
Proof. vm_compute. repeat split. Qed.

(** C3, on the code.  On a server where the key "Hello" of database 0
    holds a string, [add] of "Hello" for a.txt is fulfilled, with the two
    functions it built as its value; it has sent no command.  Carried
    out, the first of the two fails with WRONGTYPE. *)
Theorem add_is_fulfilled_without_writing :
  let tasks := [Task (Index.tokenClient Index.new) (SADD "Hello" "a.txt");
                Task (Index.tokenClient Index.new) (SET "a.txt" "Hello")] in
  run (Index.add WordTokenizer Index.new "a.txt" "Hello") string_at_Hello
  = (Fulfilled tasks,
     {| redis := redis string_at_Hello; trace := [IndexAdd "a.txt" "Hello"] |})
  ∧ (run (call_all tasks) string_at_Hello).1 = [Err WRONGTYPE; Ok OK].
Proof. vm_compute. repeat split. Qed.

Lemma replies_lookup_tasks self words srv :
  replies srv (Index.lookup_tasks self words) =
  (λ word, match srv !! (db (Index.tokenClient self), toLowerCase word) with
           | None => Ok (Members ∅)
           | Some (RSet m) => Ok (Members m)
           | Some (RString _) => Err WRONGTYPE
           end) <$> words.
Proof.
  unfold Index.lookup_tasks.
  induction words as [|word words IH]; [done|].
  cbn [fmap list_fmap replies]. rewrite step_read_only by (eexists; by left).
  rewrite IH. f_equal. unfold exec. cbn.
  by destruct (srv !! _) as [[s|m]|].
Qed.

(** C5, on the code.  With a.txt posted under "hello", [lookup] of
    "hello" is fulfilled with the function it built, not with a set, and
    has sent no command; carried out, that function returns the set with
    a.txt in it. *)
Theorem lookup_is_fulfilled_with_functions :
  let w := (run (call_all (Index.add_tasks WordTokenizer Index.new "a.txt" "hello"))
                empty_world).2 in
  run (Index.lookup Index.new ["hello"]) w
  = (Fulfilled [Task (Index.tokenClient Index.new) (SMEMBERS "hello")], w)
  ∧ (run (call_all (Index.lookup_tasks Index.new ["hello"])) w).1
    = [Ok (Members {["a.txt"]})].
Proof. vm_compute. repeat split. Qed.

Lemma map_inputFiles_only_logs detections i inputFiles w :
  redis (run (map_inputFiles detections i inputFiles) w).2 = redis w
  ∧ ∃ lines, trace (run (map_inputFiles detections i inputFiles) w).2
             = trace w ++ (Console <$> lines).
Proof.
  revert i w. induction inputFiles as [|filename rest IH]; intros i w.
  - split; [done|]. exists []. cbn. by rewrite app_nil_r.
  - cbn [map_inputFiles].
    destruct (detections !! i) as [response|].
    2:{ split; [done|]. exists []. cbn. by rewrite app_nil_r. }
    unfold run, bind in *.
    destruct (error response) as [e|].
    + unfold console_log, emit, ret. cbn.
      specialize (IH (S i)
        {| redis := redis w;
           trace := trace w ++ [Console ("API Error for " +:+ filename +:+ " " +:+ e)] |}).
      destruct (map_inputFiles detections (S i) rest _) as [r w'].
      cbn in *. destruct IH as [Hr [lines Ht]]. split; [done|].
      exists (("API Error for " +:+ filename +:+ " " +:+ e) :: lines).
      rewrite Ht, <- app_assoc. done.
    + unfold ret. cbn. specialize (IH (S i) w).
      destruct (map_inputFiles detections (S i) rest w) as [r w'].
      cbn in *. done.
Qed.

Lemma getTextFromFiles_only_logs index inputFiles detections w :
  redis (run (getTextFromFiles index inputFiles detections) w).2 = redis w
  ∧ ∃ lines, trace (run (getTextFromFiles index inputFiles detections) w).2
             = trace w ++ (Console <$> lines).
Proof.
  pose proof (map_inputFiles_only_logs detections 0 inputFiles w) as H.
  unfold getTextFromFiles, run, bind, ret in *.
  by destruct (map_inputFiles detections 0 inputFiles w) as [r w'].
Qed.

Lemma extractDescriptions_trace tk filename index response w :
  trace (run (extractDescriptions tk filename index response) w).2 =
  trace w ++
  match textAnnotations response with
  | [] => [Console (filename +:+ " had no discernable text.");
           IndexSetContainsNoText filename;
           Issued (db (Index.docsClient index)) (SET filename "")]
  | _ :: _ => [IndexAdd filename (extractDescription (textAnnotations response))]
  end.
Proof.
  unfold extractDescriptions.
  destruct (textAnnotations response) as [|text texts] eqn:Htexts; cbn [length].
  - unfold run, bind, console_log, emit, Index.setContainsNoText, send, ret.
    cbn. by rewrite <- !app_assoc.
  - unfold run, bind.
    pose proof (run_add tk index filename (extractDescription (text :: texts)) w)
      as Ha. unfold run in Ha. by rewrite Ha.
Qed.

(** C9, on the code.  For a batch of three files, the first with an error
    from the service, the second with the text "Hello", the third without
    text, [getTextFromFiles] logs the error of the first and is fulfilled
    with [undefined] and two functions; it calls neither [add] nor
    [setContainsNoText], and the server stays empty.  Called, the second
    function would call [add] and the third [setContainsNoText]. *)
Theorem getTextFromFiles_calls_no_function :
  let failed := {| error := Some "quota"; textAnnotations := [] |} in
  let text := {| error := None;
                 textAnnotations := [{| description := Some "Hello" |}] |} in
  let no_text := {| error := None; textAnnotations := [] |} in
  run (getTextFromFiles Index.new ["a.png"; "b.png"; "c.png"] [failed; text; no_text])
      empty_world
  = (Fulfilled [None; Some (FileTask "b.png" text); Some (FileTask "c.png" no_text)],
     {| redis := ∅; trace := [Console "API Error for a.png quota"] |})
  ∧ trace (run (call_file_task WordTokenizer Index.new (FileTask "b.png" text))
               empty_world).2
    = [IndexAdd "b.png" "Hello"]
  ∧ trace (run (call_file_task WordTokenizer Index.new (FileTask "c.png" no_text))
               empty_world).2
    = [Console "c.png had no discernable text."; IndexSetContainsNoText "c.png";
       Issued Index.DOCS_DB (SET "c.png" "")].
Proof. vm_compute. repeat split. Qed.

(** * Further properties of the code *)

(** ** [extractDescription] *)

Lemma append_nil_r (s : string) : s +:+ "" = s.
Proof.
  induction s as [|c s IH]; [done|].
  change (String c (s +:+ "") = String c s). by f_equal.
Qed.

Lemma append_assoc (s1 s2 s3 : string) : (s1 +:+ s2) +:+ s3 = s1 +:+ (s2 +:+ s3).
Proof.
  induction s1 as [|c s1 IH]; [done|].
  change (String c ((s1 +:+ s2) +:+ s3) = String c (s1 +:+ (s2 +:+ s3))).
  by f_equal.
Qed.

Lemma extractDescription_from (document : string) (texts : list annotation) :
  foldl (λ document text, document +:+ default "" (description text)) document texts
  = document +:+ extractDescription texts.
Proof.
  unfold extractDescription. revert document.
  induction texts as [|text texts IH]; intros document; cbn [foldl].
  - by rewrite append_nil_r.
  - rewrite IH, (IH ("" +:+ default "" (description text))).
    change ("" +:+ default "" (description text)) with (default "" (description text)).
    by rewrite append_assoc.
Qed.

Lemma extractDescription_cons text texts :
  extractDescription (text :: texts)
  = default "" (description text) +:+ extractDescription texts.
Proof. unfold extractDescription at 1. cbn. apply extractDescription_from. Qed.


(** X2. An annotation without a description, or with an empty one, adds
    nothing to the text: leaving such annotations out gives the same
    text. *)
Theorem extractDescription_skips_missing texts :
  extractDescription
    (filter (λ text, description text ≠ None ∧ description text ≠ Some "") texts)
  = extractDescription texts.
Proof.
  induction texts as [|text texts IH]; [done|].
  rewrite filter_cons. case_decide as Hd.
  - by rewrite !extractDescription_cons, IH.
  - rewrite extractDescription_cons, IH.
    destruct (description text) as [[|c s]|]; cbn; try done.
    exfalso. apply Hd. done.
Qed.

(** ** [extractDescriptions] *)

Lemma run_extractDescriptions tk filename index response w :
  run (extractDescriptions tk filename index response) w =
  (tt,
   match textAnnotations response with
   | [] =>
       {| redis := <[(db (Index.docsClient index), filename) := RString ""]> (redis w);
          trace := trace w ++
            [Console (filename +:+ " had no discernable text.");
             IndexSetContainsNoText filename;
             Issued (db (Index.docsClient index)) (SET filename "")] |}
   | _ :: _ =>
       {| redis := redis w;
          trace := trace w ++
            [IndexAdd filename (extractDescription (textAnnotations response))] |}
   end).
Proof.
  unfold extractDescriptions.
  destruct (textAnnotations response) as [|text texts] eqn:Htexts; cbn [length].
  - unfold run, bind, console_log, emit, Index.setContainsNoText, send, ret.
    cbn. by rewrite <- !app_assoc.
  - unfold run, bind.
    rewrite_run (run_add tk index filename (extractDescription (text :: texts)) w).
    done.
Qed.

(** X3. [extractDescriptions] decides on the number of annotations.  With
    none it logs that the file had no discernable text and calls
    [setContainsNoText], whose SET stores the empty string under the file
    name in the database of the docs client.  With one or more it calls
    [add] with the concatenated descriptions; no command is sent and the
    server stays as it was. *)
Theorem extractDescriptions_by_annotation_count tk filename index response w :
  run (extractDescriptions tk filename index response) w =
  (tt,
   match textAnnotations response with
   | [] =>
       {| redis := <[(db (Index.docsClient index), filename) := RString ""]> (redis w);
          trace := trace w ++
            [Console (filename +:+ " had no discernable text.");
             IndexSetContainsNoText filename;
             Issued (db (Index.docsClient index)) (SET filename "")] |}
   | _ :: _ =>
       {| redis := redis w;
          trace := trace w ++
            [IndexAdd filename (extractDescription (textAnnotations response))] |}
   end).
Proof. apply run_extractDescriptions. Qed.

(** X4. Annotations count even when none of them carries a description:
    for a response with at least one annotation and no description at
    all, [extractDescriptions] calls [add] with the empty text, and not
    [setContainsNoText]. *)
Theorem extractDescriptions_without_descriptions tk filename index response w :
  textAnnotations response ≠ [] →
  Forall (λ text, description text = None) (textAnnotations response) →
  trace (run (extractDescriptions tk filename index response) w).2
  = trace w ++ [IndexAdd filename ""].
Proof.
  intros Hne Hall. rewrite run_extractDescriptions.
  destruct (textAnnotations response) as [|text texts]; [done|].
  cbn [snd trace].
  assert (extractDescription (text :: texts) = "") as ->; [|done].
  clear Hne. induction Hall as [|t ts Ht Hts IH]; [done|].
  by rewrite extractDescription_cons, Ht, IH.
Qed.

(** A response with one annotation that has no description. *)
Lemma extractDescriptions_without_descriptions_witness :
  trace (run (extractDescriptions WordTokenizer "a.png" Index.new
                {| error := None; textAnnotations := [{| description := None |}] |})
             empty_world).2
  = trace empty_world ++ [IndexAdd "a.png" ""].
Proof.
  apply (extractDescriptions_without_descriptions WordTokenizer "a.png" Index.new
           {| error := None; textAnnotations := [{| description := None |}] |}
           empty_world).
  - simpl. discriminate.
  - simpl. apply Forall_cons. split; [reflexivity | apply Forall_nil_2].
Defined.

(** X5. Once [extractDescriptions] has run for a file whose response has
    no annotation, [documentIsProcessed] reports the file as processed. *)
Theorem no_annotation_then_processed tk filename response w :
  textAnnotations response = [] →
  (run (do_ extractDescriptions tk filename Index.new response;
            Index.documentIsProcessed Index.new filename) w).1 = Ok true.
Proof.
  intros Hnone. unfold run, bind.
  rewrite_run (run_extractDescriptions tk filename Index.new response w).
  rewrite Hnone.
  rewrite_run (documentIsProcessed_result Index.new filename
    {| redis := <[(db (Index.docsClient Index.new), filename) := RString ""]> (redis w);
       trace := trace w ++
         [Console (filename +:+ " had no discernable text.");
          IndexSetContainsNoText filename;
          Issued (db (Index.docsClient Index.new)) (SET filename "")] |}).
  cbn [redis]. by rewrite lookup_insert_eq.
Qed.

(** A response without annotations for a.png, on an empty server. *)
Lemma no_annotation_then_processed_witness :
  (run (do_ extractDescriptions WordTokenizer "a.png" Index.new
              {| error := None; textAnnotations := [] |};
            Index.documentIsProcessed Index.new "a.png") empty_world).1 = Ok true.
Proof.
  apply (no_annotation_then_processed WordTokenizer "a.png"
           {| error := None; textAnnotations := [] |} empty_world).
  reflexivity.
Defined.

(** ** [getTextFromFiles] *)

Lemma run_map_inputFiles detections i inputFiles w :
  run (map_inputFiles detections i inputFiles) w =
  (if decide (length inputFiles ≤ length (drop i detections))%nat
   then Ok (zip_with file_entry inputFiles (drop i detections))
   else Err TypeError,
   {| redis := redis w;
      trace := trace w ++
        omap id (zip_with error_line inputFiles (drop i detections)) |}).
Proof.
  revert i w. induction inputFiles as [|filename rest IH]; intros i w.
  - cbn. rewrite app_nil_r. by destruct w.
  - cbn [map_inputFiles].
    destruct (detections !! i) as [response|] eqn:Hi.
    + rewrite (drop_S _ _ _ Hi). cbn [length zip_with].
      unfold run, bind in *.
      destruct (error response) as [e|] eqn:He.
      * unfold console_log, emit, ret. cbn [fst snd].
        rewrite IH. cbn [redis trace omap list_omap].
        unfold error_line at 2, file_entry at 2. rewrite He. cbn.
        rewrite <- app_assoc. cbn.
        repeat case_decide; try lia; done.
      * unfold ret at 1. rewrite IH.
        unfold error_line at 2, file_entry at 2. rewrite He. cbn.
        repeat case_decide; try lia; done.
    + apply lookup_ge_None in Hi. rewrite drop_ge by done.
      cbn. rewrite app_nil_r. by destruct w.
Qed.

(** X6. [getTextFromFiles] is rejected with a TypeError when the service
    returned fewer responses than there are input files.  Otherwise it is
    fulfilled with one entry per input file, in order: [undefined] for a
    file whose response has an error, and for any other file the function
    that holds the file name and its response; responses beyond the last
    file are ignored. *)
Theorem getTextFromFiles_result index inputFiles detections w :
  (run (getTextFromFiles index inputFiles detections) w).1 =
  if decide (length inputFiles ≤ length detections)%nat
  then Fulfilled (zip_with file_entry inputFiles detections)
  else Rejected TypeError.
Proof.
  unfold getTextFromFiles, run, bind, ret.
  rewrite_run (run_map_inputFiles detections 0 inputFiles w).
  rewrite drop_0. case_decide; [|done].
  cbn. by rewrite Promise_all_Plain.
Qed.


(** ** [lookup] and its reads *)

Lemma run_call_all tasks w :
  run (call_all tasks) w =
  (replies (redis w) tasks,
   {| redis := foldl step (redis w) tasks;
      trace := trace w ++ (issued <$> tasks) |}).
Proof.
  pose proof (call_all_replies tasks w) as H1.
  pose proof (call_all_redis tasks w) as H2.
  pose proof (call_all_trace tasks w) as H3.
  destruct (run (call_all tasks) w) as [rs [srv tr]]. cbn in *.
  by subst.
Qed.

Lemma toLowerCase_ascii_idemp c :
  toLowerCase_ascii (toLowerCase_ascii c) = toLowerCase_ascii c.
Proof. by destruct c as [[] [] [] [] [] [] [] []]. Qed.

Lemma toLowerCase_idemp s : toLowerCase (toLowerCase s) = toLowerCase s.
Proof.
  induction s as [|c s IH]; [done|].
  cbn. by rewrite toLowerCase_ascii_idemp, IH.
Qed.

(** X8. [lookup] does not tell a word from its lower-case form: the reads
    it builds for a list of words are the reads it builds for the same
    words in lower case. *)
Theorem lookup_ignores_case self words :
  Index.lookup_tasks self (toLowerCase <$> words) = Index.lookup_tasks self words.
Proof.
  unfold Index.lookup_tasks. rewrite <- list_fmap_compose.
  apply list_fmap_ext. intros i word _. cbn.
  by rewrite toLowerCase_idemp.
Qed.

Lemma lookup_reads self words w :
  run (call_all (Index.lookup_tasks self words)) w =
  ((λ word, members_reply
              (redis w !! (db (Index.tokenClient self), toLowerCase word)))
     <$> words,
   {| redis := redis w;
      trace := trace w ++
        ((λ word, Issued (db (Index.tokenClient self))
                         (SMEMBERS (toLowerCase word))) <$> words) |}).
Proof.
  rewrite run_call_all, foldl_step_lookup_tasks, replies_lookup_tasks.
  unfold Index.lookup_tasks. rewrite <- list_fmap_compose.
  done.
Qed.

(** X9. In the callback copy, where [self] is the index, the reads that
    [lookup] builds for ASCII words, carried out: one SMEMBERS per word,
    in the order of the words, for the word in lower case, through the
    token client.  Each returns the set held under that key, the empty
    set when the key is absent, and fails with WRONGTYPE when the key
    holds a string; the server is left as it was. *)
Theorem lookup_reads_carried_out self words w :
  Forall (λ word, ascii_only word = true) words →
  run (call_all (Index.lookup_tasks self words)) w =
  ((λ word, members_reply
              (redis w !! (db (Index.tokenClient self), toLowerCase word)))
     <$> words,
   {| redis := redis w;
      trace := trace w ++
        ((λ word, Issued (db (Index.tokenClient self))
                         (SMEMBERS (toLowerCase word))) <$> words) |}).
Proof. intros _. apply lookup_reads. Qed.

(** The words "Hello" and "there" on a server where a.txt is posted under
    "hello". *)
Lemma lookup_reads_carried_out_witness :
  run (call_all (Index.lookup_tasks Index.new ["Hello"; "there"]))
      {| redis := {[ (Index.TOKEN_DB, "hello") := RSet {["a.txt"]} ]}; trace := [] |}
  = ((λ word, members_reply
        (({[ (Index.TOKEN_DB, "hello") := RSet {["a.txt"]} ]} : keyspace)
           !! (db (Index.tokenClient Index.new), toLowerCase word)))
       <$> ["Hello"; "there"],
     {| redis := {[ (Index.TOKEN_DB, "hello") := RSet {["a.txt"]} ]};
        trace := [] ++
          ((λ word, Issued (db (Index.tokenClient Index.new))
                           (SMEMBERS (toLowerCase word))) <$> ["Hello"; "there"]) |}).
Proof.
  refine (lookup_reads_carried_out Index.new ["Hello"; "there"]
            {| redis := {[ (Index.TOKEN_DB, "hello") := RSet {["a.txt"]} ]};
               trace := [] |} _).
  repeat (apply Forall_cons; split; [vm_compute; reflexivity|]).
  apply Forall_nil_2.
Defined.

(** ** The writes of [add], carried out *)

Lemma after_sadds_nil member key before : after_sadds [] member key before = before.
Proof.
  unfold after_sadds. destruct before as [[s|m]|]; try done.
  all: case_decide as Hin; [by apply elem_of_nil in Hin | done].
Qed.

Lemma step_sadd_lookup n member key' key srv :
  step srv (Task (Client n) (SADD key' member)) !! (n, key)
  = after_sadds [key'] member key (srv !! (n, key)).
Proof.
  unfold after_sadds. destruct (decide (key = key')) as [->|Hne].
  - unfold step, exec. cbn.
    destruct (srv !! (n, key')) as [[s|m]|] eqn:Hk; cbn.
    + by rewrite Hk.
    + rewrite lookup_insert_eq. case_decide as Hin; [done|].
      exfalso. apply Hin, list_elem_of_here.
    + rewrite lookup_insert_eq. case_decide as Hin; [done|].
      exfalso. apply Hin, list_elem_of_here.
  - rewrite step_frame by (unfold target; cbn; congruence).
    destruct (srv !! (n, key)) as [[s|m]|]; try done.
    all: case_decide as Hin; [|done].
    all: apply list_elem_of_singleton in Hin; done.
Qed.

Lemma after_sadds_cons key' keys member key before :
  after_sadds keys member key (after_sadds [key'] member key before)
  = after_sadds (key' :: keys) member key before.
Proof.
  assert (key ∈ key' :: keys ↔ key ∈ [key'] ∨ key ∈ keys) as Hcons.
  { rewrite elem_of_cons, list_elem_of_singleton. done. }
  unfold after_sadds.
  destruct before as [[s|m]|]; [done| |]; repeat case_decide;
    first [ done
          | exfalso; tauto
          | by rewrite (assoc_L (∪)), (idemp_L (∪))
          | by rewrite (idemp_L (∪)) ].
Qed.

Lemma foldl_step_sadds_lookup n member keys key srv :
  foldl step srv ((λ key, Task (Client n) (SADD key member)) <$> keys) !! (n, key)
  = after_sadds keys member key (srv !! (n, key)).
Proof.
  revert srv. induction keys as [|key' keys IH]; intros srv.
  - cbn. by rewrite after_sadds_nil.
  - cbn [fmap list_fmap foldl]. rewrite IH, step_sadd_lookup.
    apply after_sadds_cons.
Qed.

Lemma add_tasks_kept tk self filename document :
  Index.add_tasks tk self filename document =
  ((λ key, Task (Client (db (Index.tokenClient self))) (SADD key filename))
     <$> kept_tokens tk document)
  ++ [Task (Client (db (Index.tokenClient self))) (SET filename document)].
Proof. by rewrite add_tasks_shape, indexed_tokens_add_tasks. Qed.

Lemma add_tasks_lookup tk self filename document srv n key :
  foldl step srv (Index.add_tasks tk self filename document) !! (n, key)
  = if decide (n = db (Index.tokenClient self)) then
      if decide (key = filename) then Some (RString document)
      else after_sadds (kept_tokens tk document) filename key (srv !! (n, key))
    else srv !! (n, key).
Proof.
  case_decide as Hn.
  - subst n. rewrite add_tasks_kept, foldl_app. cbn [foldl].
    case_decide as Hk.
    + subst key. unfold step at 1, exec. cbn. by rewrite lookup_insert_eq.
    + rewrite step_frame by (unfold target; cbn; congruence).
      apply foldl_step_sadds_lookup.
  - apply foldl_step_frame.
    eapply Forall_impl; [apply add_tasks_client|].
    intros t Ht. unfold target. rewrite Ht. cbn. congruence.
Qed.

(** X10. In the callback copy, where [self] is the index: what every key
    holds once the writes that [add] builds have been carried out.  In the
    database of the token client the key of the
    file name holds the text, whatever it held before.  Any other key
    that is a kept token holds its former set with the file name added, or
    the set of the file name alone when it was absent, and is unchanged
    when it held a string; a key that is no kept token is unchanged.  The
    keys of every other database are unchanged. *)
Theorem add_writes_carried_out tk self filename document w n key :
  redis (run (call_all (Index.add_tasks tk self filename document)) w).2 !! (n, key)
  = if decide (n = db (Index.tokenClient self)) then
      if decide (key = filename) then Some (RString document)
      else after_sadds (kept_tokens tk document) filename key (redis w !! (n, key))
    else redis w !! (n, key).
Proof. rewrite call_all_redis. apply add_tasks_lookup. Qed.

Lemma holds_string_after_sadds keys member key before :
  holds_string (after_sadds keys member key before) = holds_string before.
Proof.
  unfold after_sadds. destruct before as [[s|m]|]; try done.
  by case_decide.
Qed.

Lemma replies_sadds n member keys srv :
  is_ok <$> replies srv ((λ key, Task (Client n) (SADD key member)) <$> keys)
  = (λ key, negb (holds_string (srv !! (n, key)))) <$> keys.
Proof.
  revert srv. induction keys as [|key keys IH]; intros srv; [done|].
  cbn [fmap list_fmap replies]. rewrite IH. f_equal.
  - unfold exec. cbn. by destruct (srv !! (n, key)) as [[s|m]|].
  - apply list_fmap_ext. intros i key' _. cbn.
    by rewrite step_sadd_lookup, holds_string_after_sadds.
Qed.

(** X11. In the callback copy, where [self] is the index: which of the
    writes that [add] builds succeed when they are carried out: the SADD for a kept token succeeds unless the key of that
    token holds a string in the database of the token client before
    [add], and the SET of the text, the last write, always succeeds. *)
Theorem add_writes_that_succeed tk self filename document w :
  is_ok <$> (run (call_all (Index.add_tasks tk self filename document)) w).1
  = ((λ key, negb (holds_string (redis w !! (db (Index.tokenClient self), key))))
       <$> kept_tokens tk document)
    ++ [true].
Proof.
  rewrite call_all_replies, add_tasks_kept, replies_app, fmap_app.
  by rewrite replies_sadds.
Qed.

(** X12. Carried out, the writes of [add] only add to the sets of the
    token database: a key other than the file name that held a set holds
    afterwards a set that includes it. *)
Theorem add_only_grows_posting_sets tk self filename document w key m :
  redis w !! (db (Index.tokenClient self), key) = Some (RSet m) →
  key ≠ filename →
  ∃ m', redis (run (call_all (Index.add_tasks tk self filename document)) w).2
          !! (db (Index.tokenClient self), key) = Some (RSet m')
        ∧ m ⊆ m'.
Proof.
  intros Hm Hne. rewrite call_all_redis, add_tasks_lookup.
  rewrite decide_True by done. rewrite decide_False by done.
  rewrite Hm. unfold after_sadds. eexists. split; [done|].
  case_decide; [apply union_subseteq_r | done].
Qed.

(** b.txt posted under "hello"; then the writes of [add] for a.txt with
    the text "hello world". *)
Lemma add_only_grows_posting_sets_witness :
  ∃ m', redis (run (call_all (Index.add_tasks WordTokenizer Index.new
                                "a.txt" "hello world"))
                   {| redis := {[ (Index.TOKEN_DB, "hello") := RSet {["b.txt"]} ]};
                      trace := [] |}).2
          !! (db (Index.tokenClient Index.new), "hello") = Some (RSet m')
        ∧ ({["b.txt"]} : gset string) ⊆ m'.
Proof.
  apply (add_only_grows_posting_sets WordTokenizer Index.new "a.txt" "hello world"
           {| redis := {[ (Index.TOKEN_DB, "hello") := RSet {["b.txt"]} ]};
              trace := [] |} "hello" {["b.txt"]}).
  - vm_compute. reflexivity.
  - discriminate.
Defined.

(** X13. In the callback copy, where [self] is the index, the text comes
    back as it went in: once the writes of [add] have been carried out, a GET of the file name through the token
    client returns the text of the document, whatever the server held
    before and whether or not the SADDs succeeded. *)
Theorem add_then_get_returns_the_text tk self filename document w :
  (run (do_ call_all (Index.add_tasks tk self filename document);
            call (Task (Index.tokenClient self) (GET filename))) w).1
  = Ok (Bulk document).
Proof.
  unfold run, bind.
  rewrite_run (run_call_all (Index.add_tasks tk self filename document) w).
  rewrite_run (run_call (Task (Index.tokenClient self) (GET filename))
    {| redis := foldl step (redis w) (Index.add_tasks tk self filename document);
       trace := trace w ++ (issued <$> Index.add_tasks tk self filename document) |}).
  cbn [fst redis task_client task_command]. unfold exec.
  rewrite add_tasks_lookup. by rewrite !decide_True by done.
Qed.

(** X14. In the callback copy, where [self] is the index, postings of
    different documents add up.  When an ASCII token in lower case is kept
    from the texts of two files, is the name of neither, and
    its key holds no string beforehand, then after the writes of [add]
    for the first file and then for the second have been carried out, the
    read that [lookup] builds for the token returns a set with both file
    names in it. *)
Theorem two_documents_share_a_posting_set
    tk self file1 document1 file2 document2 token w :
  ascii_only token = true →
  holds_string (redis w !! (db (Index.tokenClient self), token)) = false →
  token ∈ kept_tokens tk document1 →
  token ∈ kept_tokens tk document2 →
  token ≠ file1 →
  token ≠ file2 →
  toLowerCase token = token →
  ∃ m, (run (do_ call_all (Index.add_tasks tk self file1 document1);
             do_ call_all (Index.add_tasks tk self file2 document2);
             call_all (Index.lookup_tasks self [token])) w).1 = [Ok (Members m)]
       ∧ file1 ∈ m ∧ file2 ∈ m.
Proof.
  intros _ Hstr Hin1 Hin2 Hne1 Hne2 Hlow.
  unfold run, bind.
  rewrite_run (run_call_all (Index.add_tasks tk self file1 document1) w).
  set (w1 := {| redis := foldl step (redis w) (Index.add_tasks tk self file1 document1);
                trace := _ |}).
  rewrite_run (run_call_all (Index.add_tasks tk self file2 document2) w1).
  set (w2 := {| redis := foldl step (redis w1) (Index.add_tasks tk self file2 document2);
                trace := _ |}).
  rewrite_run (lookup_reads self [token] w2).
  cbn [fst fmap list_fmap]. rewrite Hlow.
  subst w2 w1. cbn [redis].
  rewrite !add_tasks_lookup.
  rewrite !(decide_True (P := db (Index.tokenClient self) = _)) by done.
  rewrite (decide_False (P := token = file1)) by done.
  rewrite (decide_False (P := token = file2)) by done.
  unfold after_sadds.
  destruct (redis w !! (db (Index.tokenClient self), token)) as [[s|m]|];
    [done| |]; repeat case_decide; try done;
    (eexists; split; [done|]);
    rewrite !elem_of_union, !elem_of_singleton; tauto.
Qed.

(** The texts "hello world" of a.txt and "hello there" of b.txt, on an
    empty server, and the token "hello". *)
Lemma two_documents_share_a_posting_set_witness :
  ∃ m, (run (do_ call_all (Index.add_tasks WordTokenizer Index.new
                             "a.txt" "hello world");
             do_ call_all (Index.add_tasks WordTokenizer Index.new
                             "b.txt" "hello there");
             call_all (Index.lookup_tasks Index.new ["hello"])) empty_world).1
       = [Ok (Members m)]
       ∧ "a.txt" ∈ m ∧ "b.txt" ∈ m.
Proof.
  apply (two_documents_share_a_posting_set WordTokenizer Index.new
           "a.txt" "hello world" "b.txt" "hello there" "hello" empty_world).
  - vm_compute. reflexivity.
  - vm_compute. reflexivity.
  - vm_compute. apply list_elem_of_here.
  - vm_compute. apply list_elem_of_here.
  - discriminate.
  - discriminate.
  - vm_compute. reflexivity.
Defined.

(** ** [documentIsProcessed] and [setContainsNoText] *)

Lemma run_documentIsProcessed self filename w :
  (run (Index.documentIsProcessed self filename) w).2 =
  {| redis := redis w;
     trace := trace w ++
       Issued (db (Index.docsClient self)) (GET filename) ::
       match redis w !! (db (Index.docsClient self), filename) with
       | Some (RString "") =>
           [Console (filename +:+ " was already checked, and contains no text.")]
       | Some (RString _) => [Console (filename +:+ " already added to index.")]
       | Some (RSet _) | None => []
       end |}.
Proof.
  unfold run, Index.documentIsProcessed, bind, send, exec.
  destruct (redis w !! (db (Index.docsClient self), filename)) as [[s|m]|];
    cbn; try done.
  destruct s as [|c s]; cbn; by rewrite <- app_assoc.
Qed.

(** X15. [documentIsProcessed] sends one GET of the file name through the
    docs client and changes nothing on the server.  It logs one line when
    it reports the file as processed, "already added to index" for a text
    and "was already checked, and contains no text" for the empty string,
    and no line when the key is absent or the GET fails. *)
Theorem documentIsProcessed_reads_and_logs self filename w :
  (run (Index.documentIsProcessed self filename) w).2 =
  {| redis := redis w;
     trace := trace w ++
       Issued (db (Index.docsClient self)) (GET filename) ::
       match redis w !! (db (Index.docsClient self), filename) with
       | Some (RString "") =>
           [Console (filename +:+ " was already checked, and contains no text.")]
       | Some (RString _) => [Console (filename +:+ " already added to index.")]
       | Some (RSet _) | None => []
       end |}.
Proof. apply run_documentIsProcessed. Qed.

Lemma run_setContainsNoText self filename w :
  run (Index.setContainsNoText self filename) w =
  (Ok OK,
   {| redis := <[(db (Index.docsClient self), filename) := RString ""]> (redis w);
      trace := trace w ++ [IndexSetContainsNoText filename;
                           Issued (db (Index.docsClient self)) (SET filename "")] |}).
Proof.
  unfold run, Index.setContainsNoText, bind, emit, send, exec. cbn.
  by rewrite <- app_assoc.
Qed.

(** X16. Marking one file as without text changes the answer of
    [documentIsProcessed] for no other file. *)
Theorem setContainsNoText_leaves_other_files self filename other w :
  other ≠ filename →
  (run (do_ Index.setContainsNoText self filename;
            Index.documentIsProcessed self other) w).1
  = (run (Index.documentIsProcessed self other) w).1.
Proof.
  intros Hne. rewrite documentIsProcessed_result.
  unfold run, bind.
  rewrite_run (run_setContainsNoText self filename w).
  rewrite_run (documentIsProcessed_result self other
    {| redis := <[(db (Index.docsClient self), filename) := RString ""]> (redis w);
       trace := trace w ++ [IndexSetContainsNoText filename;
                            Issued (db (Index.docsClient self)) (SET filename "")] |}).
  cbn [redis]. rewrite lookup_insert_ne; [done|]. congruence.
Qed.

(** a.png is marked on an empty server; b.png is asked for. *)
Lemma setContainsNoText_leaves_other_files_witness :
  (run (do_ Index.setContainsNoText Index.new "a.png";
            Index.documentIsProcessed Index.new "b.png") empty_world).1
  = (run (Index.documentIsProcessed Index.new "b.png") empty_world).1.
Proof.
  apply (setContainsNoText_leaves_other_files Index.new "a.png" "b.png" empty_world).
  discriminate.
Defined.

(** ** The command line *)

(** X17. Whatever its arguments, the script either logs a usage message
    and exits with status 1, or hands over to [main] or to [lookup].  It
    hands over to [main] only for the command "analyze", with the
    argument that follows the command and no other; it hands over to
    [lookup] only for the command "lookup", with all the arguments that
    follow the command, of which there is at least one. *)
Theorem script_exits_or_runs_one_command argv :
  (∃ logged, script argv = Exit logged 1)
  ∨ (∃ inputDir, script argv = Main inputDir
       ∧ argv !! 2%nat = Some "analyze" ∧ argv !! 3%nat = Some inputDir)
  ∨ (∃ words, script argv = Lookup words
       ∧ argv !! 2%nat = Some "lookup" ∧ words = drop 3 argv ∧ words ≠ []).
Proof.
  unfold script.
  destruct argv as [|node [|file [|command args]]];
    try (left; eexists; reflexivity).
  rewrite decide_False by (cbn; lia).
  cbn [drop head tail].
  destruct (decide (Some command = Some "analyze")) as [[= ->]|Hanalyze].
  - destruct args as [|inputDir args]; [left; eauto|].
    right; left. eauto.
  - destruct (decide (Some command = Some "lookup")) as [[= ->]|Hlookup].
    + destruct args as [|word args]; [left; eauto|].
      right; right. eexists. repeat split; done.
    + left. eauto.
Qed.

(** ** Which words find a document *)

(** X18. In the callback copy, where [self] is the index: one document on
    an empty server, writes and read carried out.  The read that [lookup]
    builds for an ASCII word returns the set of the file
    name alone when the word in lower case is one of the kept tokens of
    the text, as the tokenizer gave them, and the empty set when it is
    not; when the word in lower case is the file name itself, the key
    holds the text and the read fails with WRONGTYPE. *)
Theorem words_that_find_a_document tk self filename document word :
  ascii_only word = true →
  (run (do_ call_all (Index.add_tasks tk self filename document);
            call_all (Index.lookup_tasks self [word])) empty_world).1
  = [if decide (toLowerCase word = filename) then Err WRONGTYPE
     else if decide (toLowerCase word ∈ kept_tokens tk document)
          then Ok (Members {[filename]})
          else Ok (Members ∅)].
Proof.
  intros _. unfold run, bind.
  rewrite_run (run_call_all (Index.add_tasks tk self filename document) empty_world).
  set (w1 := {| redis := _; trace := _ |}).
  rewrite_run (lookup_reads self [word] w1).
  subst w1. cbn [fst fmap list_fmap redis empty_world].
  rewrite add_tasks_lookup.
  rewrite (decide_True (P := db (Index.tokenClient self) = _)) by done.
  rewrite lookup_empty. unfold after_sadds.
  by repeat case_decide.
Qed.

(** The text "Hello world" of a.txt and the word "World". *)
Lemma words_that_find_a_document_witness :
  (run (do_ call_all (Index.add_tasks WordTokenizer Index.new "a.txt" "Hello world");
            call_all (Index.lookup_tasks Index.new ["World"])) empty_world).1
  = [if decide (toLowerCase "World" = "a.txt") then Err WRONGTYPE
     else if decide (toLowerCase "World" ∈ kept_tokens WordTokenizer "Hello world")
          then Ok (Members {["a.txt"]})
          else Ok (Members ∅)].
Proof.
  apply (words_that_find_a_document WordTokenizer Index.new "a.txt" "Hello world"
           "World").
  vm_compute. reflexivity.
Defined.
